(** * Tone field: the [get_field] handler of [backend/main.py]

    The handler evaluates a radially symmetric cosine wave on a fixed
    50 x 50 grid and returns the flattened grid together with the echoed
    parameters.

    The numeric code is written once, over an interface [NumOps] of the
    float64 operations the source uses ([+ - * /], [np.sqrt], integer to
    float conversion, the literal [0.9]) and an interface [Trig] for
    [np.cos] and [np.pi].  Two interpretations are given:

    - [float]: IEEE-754 binary64 through Rocq's primitive floats, the
      arithmetic CPython and NumPy really perform; [np.cos] is the
      platform's libm cosine and stays a parameter ([float_trig]);
    - [R]: exact real arithmetic, the mathematical meaning of the NumPy
      expression, without rounding, overflow, infinities or NaN.  What is
      proved there describes the program only as far as rounding cannot
      change it or within the tolerance the statement gives.

    Statements that hold for every interpretation are proved once,
    generically, and so hold for the program's own arithmetic. *)

From Stdlib Require Import List ZArith Lia Reals Lra.
From Stdlib Require PrimFloat Uint63.
Import ListNotations.

Set Implicit Arguments.

(** ** The numeric interface *)

Class NumOps (F : Type) : Type := {
  of_int : Z -> F;          (* an [int] used where a float is expected *)
  lit_0_9 : F;              (* the literal [0.9] *)
  add : F -> F -> F;
  sub : F -> F -> F;
  mul : F -> F -> F;
  div : F -> F -> F;
  np_sqrt : F -> F
}.

Class Trig (F : Type) : Type := {
  np_cos : F -> F;
  np_pi : F
}.

(** The JSON object returned by the handler. *)
Record response (F : Type) : Type := {
  z_values : list F;
  size : nat;
  tension : F;
  frequency : F
}.

(** ** List helpers standing for NumPy's array operations *)

Section Arrays.
Context {A B C : Type}.

(** Elementwise binary operation on two arrays of the same shape. *)
Fixpoint zip_with (f : A -> B -> C) (l : list A) (m : list B) : list C :=
  match l, m with
  | a :: l', b :: m' => f a b :: zip_with f l' m'
  | _, _ => []
  end.

(** [y[-1] = v] *)
Definition set_last (l : list A) (v : A) : list A :=
  match l with
  | [] => []
  | _ :: _ => removelast l ++ [v]
  end.
End Arrays.

(** ** The handler, generic in the arithmetic *)

Section Field.
Context {F : Type} {ops : NumOps F} {trig : Trig F}.

Definition of_nat (n : nat) : F := of_int (Z.of_nat n).

(** [np.arange(0, num)] as floats. *)
Definition arange (num : nat) : list F := map of_nat (seq 0 num).

(** [np.linspace(start, stop, num)] with the default [endpoint=True]:
    [step = (stop - start) / (num - 1)], [y = arange(0, num) * step + start],
    and the last sample overwritten by [stop].  (NumPy's branch for a zero
    step is not reached by [linspace(-1, 1, 50)] and is left out.) *)
Definition linspace (start stop : F) (num : nat) : list F :=
  let dv := (num - 1)%nat in
  let delta := sub stop start in
  let y := arange num in
  let y := if (0 <? dv)%nat
           then map (fun v => mul v (div delta (of_nat dv))) y
           else map (fun v => mul v delta) y in
  let y := map (fun v => add v start) y in
  if (1 <? num)%nat then set_last y stop else y.

(** [np.meshgrid(x, y)] with the default [indexing='xy']:
    [X[i][j] = x[j]] and [Y[i][j] = y[i]], both of shape [len y] x [len x]. *)
Definition meshgrid (x y : list F) : list (list F) * list (list F) :=
  (map (fun _ => x) y, map (fun yi => map (fun _ => yi) x) y).

(** Elementwise application over a 2-D array. *)
Definition ew1 (f : F -> F) (M : list (list F)) : list (list F) :=
  map (map f) M.

Definition ew2 (f : F -> F -> F) (M N : list (list F)) : list (list F) :=
  zip_with (zip_with f) M N.

(** [M ** 2] *)
Definition square (v : F) : F := mul v v.

(** [amplitude = 1.0 - (tension * 0.9)] *)
Definition amplitude (tension : F) : F :=
  sub (of_int 1) (mul tension lit_0_9).

(** [R = np.sqrt(X**2 + Y**2)] *)
Definition radius (X Y : list (list F)) : list (list F) :=
  ew1 np_sqrt (ew2 add (ew1 square X) (ew1 square Y)).

(** [Z = amplitude * np.cos(frequency * R * np.pi)] *)
Definition wave (amp frequency : F) (R : list (list F)) : list (list F) :=
  ew1 (mul amp)
    (ew1 np_cos (ew1 (fun v => mul v np_pi) (ew1 (mul frequency) R))).

(** [Z.flatten()]: row-major. *)
Definition flatten (M : list (list F)) : list F := concat M.

Definition get_field (tension frequency : F) : response F :=
  let size := 50%nat in
  let x := linspace (of_int (-1)) (of_int 1) size in
  let y := linspace (of_int (-1)) (of_int 1) size in
  let '(X, Y) := meshgrid x y in
  let R := radius X Y in
  let amp := amplitude tension in
  let Z := wave amp frequency R in
  {| z_values := flatten Z;
     size := size;
     tension := tension;
     frequency := frequency |}.

(** The value of one grid cell, as the handler computes it from the
    coordinates [xj] and [yi]. *)
Definition cell (tension frequency xj yi : F) : F :=
  mul (amplitude tension)
    (np_cos (mul (mul frequency
                     (np_sqrt (add (square xj) (square yi))))
                np_pi)).

(** The [k]-th sample of [linspace start stop num], for [num > 1]. *)
Definition sample (start stop : F) (num k : nat) : F :=
  if (k =? num - 1)%nat then stop
  else add (mul (of_nat k) (div (sub stop start) (of_nat (num - 1)))) start.

Definition grid_axis : list F := linspace (of_int (-1)) (of_int 1) 50.

(** The [k]-th sample of the axis [np.linspace(-1, 1, 50)]. *)
Definition axis_sample (k : nat) : F :=
  sample (of_int (-1)) (of_int 1) 50 k.

(** The coordinate as the specification writes it, [-1 + 2*k/49],
    evaluated in the arithmetic. *)
Definition spec_coord (k : nat) : F :=
  add (of_int (-1)) (div (of_int (2 * Z.of_nat k)) (of_int 49)).

(** The radius of one cell, [sqrt(x**2 + y**2)]. *)
Definition cell_radius (xj yi : F) : F :=
  np_sqrt (add (square xj) (square yi)).

(** The 2-D array whose entry in row [i], column [j] is [c x[j] y[i]]. *)
Definition grid_of (c : F -> F -> F) (x y : list F) : list (list F) :=
  map (fun yi => map (fun xj => c xj yi) x) y.
End Field.

(** ** Interpretation in exact real arithmetic

    An idealisation: [+ - * /], [np.sqrt], [np.cos] and [np.pi] are the
    real operations and constants, so there is no rounding and no
    overflow. *)

Module Exact.
#[export] Instance real_ops : NumOps R := {|
  of_int := IZR;
  lit_0_9 := (9 / 10)%R;
  add := Rplus;
  sub := Rminus;
  mul := Rmult;
  div := Rdiv;
  np_sqrt := sqrt
|}.

#[export] Instance real_trig : Trig R := {|
  np_cos := cos;
  np_pi := PI
|}.
End Exact.

(** ** Interpretation in IEEE-754 binary64 *)

Module Binary64.
Import PrimFloat.
(** Conversion of a Python [int] to a float (exact below [2^53]). *)
Definition float_of_Z (z : Z) : PrimFloat.float :=
  match z with
  | Z0 => PrimFloat.zero
  | Zpos _ => PrimFloat.of_uint63 (Uint63.of_Z z)
  | Zneg p => PrimFloat.opp (PrimFloat.of_uint63 (Uint63.of_Z (Zpos p)))
  end.

(** The double nearest to 0.9, which is what the literal [0.9] denotes;
    it prints as 0.90000000000000002. *)
Definition double_0_9 : PrimFloat.float := (0x1.ccccccccccccdp-1)%float.

(** The double nearest to 0.1; it prints as 0.10000000000000001. *)
Definition double_0_1 : PrimFloat.float := (0x1.999999999999ap-4)%float.

(** The double two units in the last place below [double_0_1]; it prints
    as 0.09999999999999998. *)
Definition double_below_0_1 : PrimFloat.float :=
  (0x1.9999999999998p-4)%float.

(** [2^-55], about 2.8e-17. *)
Definition two_pow_minus_55 : PrimFloat.float := (0x1p-55)%float.

(** [np.pi], the double nearest to pi; it prints as 3.141592653589793. *)
Definition double_pi : PrimFloat.float := (0x1.921fb54442d18p+1)%float.

(** The double [1e15] (exact). *)
Definition double_1e15 : PrimFloat.float := (0x1.c6bf52634p+49)%float.

(** The double nearest to [1e308], which is what the literal denotes. *)
Definition double_1e308 : PrimFloat.float := (0x1.1ccf385ebc8ap+1023)%float.

(** The radius of the four central cells as the program computes it; it
    prints as 0.02886150127292034. *)
Definition center_radius_double : PrimFloat.float :=
  (0x1.d8dde90529749p-6)%float.

(** The last sample of the axis before it is overwritten by [stop]; it
    prints as 0.99999999999999978. *)
Definition double_below_1 : PrimFloat.float := (0x1.ffffffffffffep-1)%float.

(** Fields in the order of [NumOps]:
    [of_int], [lit_0_9], [add], [sub], [mul], [div], [np_sqrt]. *)
#[export] Instance float_ops : NumOps float :=
  Build_NumOps float_of_Z double_0_9
    PrimFloat.add PrimFloat.sub PrimFloat.mul PrimFloat.div PrimFloat.sqrt.

(** [np.cos] is the platform's libm cosine, which IEEE-754 does not fix:
    it is a parameter of the binary64 interpretation. *)
Definition float_trig (libm_cos : PrimFloat.float -> PrimFloat.float) :
  Trig PrimFloat.float :=
  Build_Trig libm_cos double_pi.

(** The handler in binary64, for a given libm cosine. *)
Definition get_field64 (libm_cos : PrimFloat.float -> PrimFloat.float)
    (tension frequency : PrimFloat.float) : response PrimFloat.float :=
  @get_field PrimFloat.float float_ops (float_trig libm_cos)
             tension frequency.
End Binary64.

(** ** Vocabulary of the statements *)

Module Props.
Import Exact.
Local Open Scope R_scope.

(** [a] is within [eps] of [b]. *)
Definition approx (eps a b : R) : Prop := Rabs (a - b) <= eps.

(** The grid coordinate of the specification: [x[k] = -1 + 2*k/49]. *)
Definition coord (k : nat) : R := -1 + 2 * INR k / 49.

(** The four cells nearest to the origin, as (row, column). *)
Definition center_cells : list (nat * nat) :=
  [(24, 24); (24, 25); (25, 24); (25, 25)]%nat.

(** Position of cell [(i, j)] in the row-major flattening. *)
Definition flat_index (i j : nat) : nat := (i * 50 + j)%nat.

(** The value the handler returns for cell [(i, j)], if any. *)
Definition z_at (tension frequency : R) (i j : nat) : option R :=
  nth_error (z_values (get_field tension frequency)) (flat_index i j).
End Props.

(** * Properties *)

(** ** Arrays *)

Section ArrayFacts.
Context {A B C : Type}.

Lemma zip_with_map {D : Type} (f : A -> B -> C) (g : D -> A) (h : D -> B)
      (l : list D) :
  zip_with f (map g l) (map h l) = map (fun d => f (g d) (h d)) l.
Proof.
  induction l as [|d l IH]; simpl; [reflexivity | now rewrite IH].
Qed.

Lemma length_set_last (l : list A) (v : A) :
  length (set_last l v) = length l.
Proof.
  destruct l as [|a l]; [reflexivity|].
  unfold set_last. rewrite length_app, removelast_firstn_len, length_firstn.
  simpl length. lia.
Qed.

Lemma nth_error_set_last (l : list A) (v : A) (k : nat) :
  k < length l ->
  nth_error (set_last l v) k =
  if k =? length l - 1 then Some v else nth_error l k.
Proof.
  intros Hk. destruct l as [|a l]; [simpl in Hk; lia|].
  unfold set_last. rewrite removelast_firstn_len.
  set (m := a :: l) in *. set (n := Nat.pred (length m)).
  assert (Hlen : length (firstn n m) = n)
    by (rewrite length_firstn; subst n; lia).
  replace (length m - 1) with n by (subst n; lia).
  destruct (Nat.eqb_spec k n) as [->|Hne].
  - rewrite nth_error_app2 by lia. rewrite Hlen, Nat.sub_diag. reflexivity.
  - rewrite nth_error_app1 by (subst n; lia).
    rewrite nth_error_firstn.
    destruct (Nat.ltb_spec k n); [reflexivity | subst n; lia].
Qed.

(** Row-major flattening: entry [(i, j)] of an array with rows of length
    [n] lands at position [i * n + j]. *)
Lemma nth_error_concat_rows (M : list (list A)) (n i j : nat) (row : list A) :
  Forall (fun r => length r = n) M ->
  nth_error M i = Some row ->
  j < n ->
  nth_error (concat M) (i * n + j) = nth_error row j.
Proof.
  intros Hrows. revert i.
  induction Hrows as [|r M Hr Hrows IH]; intros i Hi Hj.
  - destruct i; discriminate.
  - destruct i as [|i]; simpl in *.
    + injection Hi as ->. apply nth_error_app1. lia.
    + rewrite nth_error_app2 by lia.
      replace (n + i * n + j - length r) with (i * n + j) by lia.
      now apply IH.
Qed.
End ArrayFacts.

(** ** The handler, for every interpretation of the arithmetic *)

Section FieldFacts.
Context {F : Type} {ops : NumOps F} {trig : Trig F}.

Lemma length_arange (num : nat) : length (arange (F:=F) num) = num.
Proof. unfold arange. now rewrite length_map, length_seq. Qed.

Lemma length_linspace (start stop : F) (num : nat) :
  length (linspace start stop num) = num.
Proof.
  unfold linspace.
  destruct (1 <? num); [rewrite length_set_last|];
    destruct (0 <? num - 1); now rewrite !length_map, length_arange.
Qed.

Lemma nth_error_linspace (start stop : F) (num k : nat) :
  1 < num -> k < num ->
  nth_error (linspace start stop num) k = Some (sample start stop num k).
Proof.
  intros Hnum Hk. unfold linspace, sample.
  destruct (Nat.ltb_spec 1 num); [|lia].
  destruct (Nat.ltb_spec 0 (num - 1)); [|lia].
  rewrite nth_error_set_last by (now rewrite !length_map, length_arange).
  rewrite !length_map, length_arange.
  destruct (k =? num - 1); [reflexivity|].
  unfold arange. rewrite !nth_error_map, nth_error_seq.
  destruct (Nat.ltb_spec k num); [reflexivity | lia].
Qed.

Lemma length_grid_axis : length (grid_axis (F:=F)) = 50.
Proof. apply length_linspace. Qed.

Lemma nth_error_grid_axis (k : nat) :
  k < 50 ->
  nth_error grid_axis k = Some (sample (of_int (-1)) (of_int 1) 50 k).
Proof. intros Hk. apply nth_error_linspace; lia. Qed.

Lemma meshgrid_grid_of (x y : list F) :
  meshgrid x y = (grid_of (fun xj _ => xj) x y, grid_of (fun _ yi => yi) x y).
Proof.
  unfold meshgrid, grid_of. f_equal.
  apply map_ext. intros _. symmetry. apply map_id.
Qed.

Lemma ew1_grid_of (f : F -> F) (c : F -> F -> F) (x y : list F) :
  ew1 f (grid_of c x y) = grid_of (fun xj yi => f (c xj yi)) x y.
Proof.
  unfold ew1, grid_of. rewrite map_map.
  apply map_ext. intros yi. apply map_map.
Qed.

Lemma ew2_grid_of (f : F -> F -> F) (c d : F -> F -> F) (x y : list F) :
  ew2 f (grid_of c x y) (grid_of d x y) =
  grid_of (fun xj yi => f (c xj yi) (d xj yi)) x y.
Proof.
  unfold ew2, grid_of. rewrite zip_with_map.
  apply map_ext. intros yi. apply zip_with_map.
Qed.

(** The array [Z] of the handler, cell by cell. *)
Lemma z_values_grid (t f : F) :
  z_values (get_field t f) = flatten (grid_of (cell t f) grid_axis grid_axis).
Proof.
  unfold get_field. fold (grid_axis (F:=F)).
  rewrite meshgrid_grid_of. cbv beta iota zeta. unfold z_values.
  unfold radius, wave.
  now rewrite !ew1_grid_of, ew2_grid_of, !ew1_grid_of.
Qed.

Lemma grid_of_rows (c : F -> F -> F) (x y : list F) :
  Forall (fun r => length r = length x) (grid_of c x y).
Proof.
  unfold grid_of. apply Forall_forall. intros r Hr.
  apply in_map_iff in Hr as (yi & <- & _). apply length_map.
Qed.

Lemma length_flatten_grid_of (c : F -> F -> F) (x y : list F) :
  length (flatten (grid_of c x y)) = length y * length x.
Proof.
  unfold flatten, grid_of. induction y as [|yi y IH]; simpl; [reflexivity|].
  now rewrite length_app, length_map, IH.
Qed.

Lemma nth_error_flatten_grid_of (c : F -> F -> F) (x y : list F)
      (i j : nat) (xj yi : F) :
  nth_error x j = Some xj -> nth_error y i = Some yi ->
  nth_error (flatten (grid_of c x y)) (i * length x + j) = Some (c xj yi).
Proof.
  intros Hx Hy. unfold flatten.
  rewrite nth_error_concat_rows
    with (row := map (fun a => c a yi) x).
  - now rewrite nth_error_map, Hx.
  - apply grid_of_rows.
  - unfold grid_of. now rewrite nth_error_map, Hy.
  - apply nth_error_Some. congruence.
Qed.

(** Entry [(i, j)] of the response, for every arithmetic. *)
Lemma nth_error_z_values (t f : F) (i j : nat) :
  i < 50 -> j < 50 ->
  nth_error (z_values (get_field t f)) (i * 50 + j) =
  Some (cell t f (sample (of_int (-1)) (of_int 1) 50 j)
                 (sample (of_int (-1)) (of_int 1) 50 i)).
Proof.
  intros Hi Hj. rewrite z_values_grid.
  rewrite <- (length_grid_axis) at 3.
  apply nth_error_flatten_grid_of; now apply nth_error_grid_axis.
Qed.

Lemma length_z_values (t f : F) :
  length (z_values (get_field t f)) = 2500.
Proof.
  now rewrite z_values_grid, length_flatten_grid_of, length_grid_axis.
Qed.

Lemma Forall_z_values (P : F -> Prop) (t f : F) :
  (forall xj yi, P (cell t f xj yi)) -> Forall P (z_values (get_field t f)).
Proof.
  intros HP. rewrite z_values_grid. unfold flatten, grid_of.
  apply Forall_concat, Forall_forall. intros r Hr.
  apply in_map_iff in Hr as (yi & <- & _).
  apply Forall_forall. intros v Hv.
  apply in_map_iff in Hv as (xj & <- & _). apply HP.
Qed.
End FieldFacts.

(** ** Exact arithmetic: auxiliary facts *)

Section RealFacts.
Import Exact Props.
Local Open Scope R_scope.

Lemma cell_exact (t f xj yi : R) :
  cell t f xj yi =
  amplitude t * cos (f * sqrt (xj ^ 2 + yi ^ 2) * PI).
Proof.
  unfold cell, square. simpl.
  now replace (xj * xj + yi * yi) with (xj ^ 2 + yi ^ 2) by ring.
Qed.

Lemma amplitude_exact (t : R) : amplitude t = 1 - t * (9 / 10).
Proof. reflexivity. Qed.

(** The samples of [np.linspace(-1, 1, 50)] are the coordinates of the
    specification. *)
Lemma sample_coord (k : nat) :
  (k < 50)%nat -> sample (of_int (-1)) (of_int 1) 50 k = coord k.
Proof.
  intros Hk. unfold sample, coord, of_nat. simpl of_int.
  rewrite (INR_IZR_INZ k).
  destruct (Nat.eqb_spec k (50 - 1)) as [->|_]; simpl; lra.
Qed.

Lemma z_at_coord (t f : R) (i j : nat) :
  (i < 50)%nat -> (j < 50)%nat ->
  z_at t f i j =
  Some (amplitude t * cos (f * sqrt (coord j ^ 2 + coord i ^ 2) * PI)).
Proof.
  intros Hi Hj. unfold z_at, flat_index.
  rewrite nth_error_z_values by assumption.
  now rewrite cell_exact, !sample_coord.
Qed.

Lemma sin_abs_le (y : R) : Rabs (sin y) <= Rabs y.
Proof.
  assert (Hpos : forall u, 0 < u -> Rabs (sin u) <= u).
  { intros u Hu. apply Rabs_le. split.
    - destruct (Rle_dec u PI) as [Hle|Hgt].
      + pose proof (sin_ge_0 u (Rlt_le _ _ Hu) Hle). lra.
      + pose proof (SIN_bound u). pose proof PI2_3_2. lra.
    - apply Rlt_le, sin_lt_x, Hu. }
  destruct (Rtotal_order y 0) as [Hneg|[->|Hgt]].
  - rewrite (Rabs_left y) by assumption.
    replace (sin y) with (- sin (- y)) by (rewrite sin_neg; ring).
    rewrite Rabs_Ropp. apply Hpos. lra.
  - rewrite sin_0, Rabs_R0. lra.
  - rewrite (Rabs_right y) by lra. now apply Hpos.
Qed.

Lemma cos_near_one (x : R) : Rabs (cos x - 1) <= x * x / 2.
Proof.
  replace x with (2 * (x / 2)) at 1 by field.
  rewrite cos_2a_sin.
  pose proof (Rsqr_le_abs_1 _ _ (sin_abs_le (x / 2))) as Hsq.
  unfold Rsqr in Hsq.
  apply Rabs_le. nra.
Qed.

Lemma center_coord (k : nat) :
  k = 24%nat \/ k = 25%nat -> coord k ^ 2 = 1 / 2401.
Proof. intros [->| ->]; unfold coord; simpl; field. Qed.

(** Distance of the four central cells from the origin. *)
Lemma center_radius (i j : nat) :
  In (i, j) center_cells ->
  sqrt (coord j ^ 2 + coord i ^ 2) = sqrt 2 / 49.
Proof.
  intros Hin.
  assert (Hi : i = 24%nat \/ i = 25%nat)
    by (simpl in Hin; intuition congruence).
  assert (Hj : j = 24%nat \/ j = 25%nat)
    by (simpl in Hin; intuition congruence).
  rewrite (center_coord Hi), (center_coord Hj).
  pose proof (sqrt_pos 2) as H2.
  pose proof (sqrt_sqrt 2 ltac:(lra)) as Hs.
  replace (1 / 2401 + 1 / 2401) with ((sqrt 2 / 49) * (sqrt 2 / 49))
    by (field_simplify; rewrite ?Hs; nra).
  apply sqrt_square. nra.
Qed.

Lemma center_index (i j : nat) :
  In (i, j) center_cells -> (i < 50)%nat /\ (j < 50)%nat.
Proof. simpl. intros H. repeat destruct H as [H|H]; inversion H; lia. Qed.

Lemma z_at_center (t f : R) (i j : nat) :
  In (i, j) center_cells ->
  z_at t f i j = Some (amplitude t * cos (f * (sqrt 2 / 49) * PI)).
Proof.
  intros Hin. destruct (center_index Hin) as [Hi Hj].
  now rewrite z_at_coord, center_radius.
Qed.

Lemma center_deviation (t f : R) :
  Rabs (amplitude t * cos (f * (sqrt 2 / 49) * PI) - amplitude t) <=
  Rabs (amplitude t) * (f * f * (PI * PI) / 2401).
Proof.
  set (A := amplitude t). set (x := f * (sqrt 2 / 49) * PI).
  replace (A * cos x - A) with (A * (cos x - 1)) by ring.
  rewrite Rabs_mult.
  apply Rmult_le_compat_l; [apply Rabs_pos|].
  pose proof (cos_near_one x) as Hc.
  pose proof (sqrt_sqrt 2 ltac:(lra)) as Hs.
  replace (f * f * (PI * PI) / 2401) with (x * x / 2); [exact Hc|].
  subst x.
  transitivity (f * f * (PI * PI) * (sqrt 2 * sqrt 2) / 4802); [field|].
  rewrite Hs. field.
Qed.
End RealFacts.

(** ** The response, for every interpretation of the arithmetic *)

Section Response.
Context {F : Type} {ops : NumOps F} {trig : Trig F}.

(** C2: for every tension and frequency the response has [size = 50] and
    [z_values] holds exactly 2500 entries. *)
Theorem get_field_dimensions (t f : F) :
  size (get_field t f) = 50 /\ length (z_values (get_field t f)) = 2500.
Proof.
  split; [reflexivity | apply length_z_values].
Qed.

(** C8: the response echoes both inputs unchanged. *)
Theorem get_field_echo (t f : F) :
  tension (get_field t f) = t /\ frequency (get_field t f) = f.
Proof. split; reflexivity. Qed.
End Response.

(** ** The field in exact arithmetic *)

Section ExactField.
Import Exact Props.
Local Open Scope R_scope.

(** C5, as stated, fails: at tension 0 and frequency [49 / sqrt 2] the
    cell (24, 24) holds [-1] while the amplitude is [1]. *)
Lemma center_cell_far_from_amplitude :
  z_at 0 (49 / sqrt 2) 24 24 = Some (-1) /\
  amplitude 0 = 1 /\
  ~ approx 1 (-1) (amplitude 0).
Proof.
  assert (Ha : amplitude 0 = 1) by (rewrite amplitude_exact; lra).
  split; [|split; [exact Ha|]].
  - rewrite z_at_center by (simpl; auto). rewrite Ha.
    assert (Hs : sqrt 2 <> 0).
    { pose proof (sqrt_lt_R0 2 ltac:(lra)). lra. }
    replace (49 / sqrt 2 * (sqrt 2 / 49) * PI) with PI by (field; exact Hs).
    rewrite cos_PI. f_equal. ring.
  - unfold approx. rewrite Ha.
    replace (-1 - 1) with (-2) by ring.
    rewrite Rabs_left by lra. lra.
Qed.

(** C7: at tension 1 and frequency 0 every one of the 2500 values is 0.1
    (within 1e-9), and at tension 0 and frequency 1 each central cell is
    within 0.01 of 1. *)
Theorem scenario_values :
  length (z_values (get_field 1 0)) = 2500%nat /\
  Forall (fun v => approx (1 / 1000000000) v (1 / 10))
         (z_values (get_field 1 0)) /\
  Forall (fun c => exists z, z_at 0 1 (fst c) (snd c) = Some z /\
                             approx (1 / 100) z 1)
         center_cells.
Proof.
  split; [apply length_z_values|]. split.
  - apply Forall_z_values. intros xj yi.
    rewrite cell_exact, amplitude_exact. unfold approx.
    replace (0 * sqrt (xj ^ 2 + yi ^ 2) * PI) with 0 by ring.
    rewrite cos_0.
    replace ((1 - 1 * (9 / 10)) * 1 - 1 / 10) with 0 by field.
    rewrite Rabs_R0. lra.
  - apply Forall_forall. intros [i j] Hin. simpl fst; simpl snd.
    eexists. split; [now apply z_at_center|].
    unfold approx.
    pose proof (center_deviation 0 1) as Hd.
    replace (amplitude 0) with 1 in * by (rewrite amplitude_exact; lra).
    rewrite Rabs_R1 in Hd.
    pose proof PI_4. pose proof PI_RGT_0. nra.
Qed.

(** C9, amended: for finite inputs whose cosine argument
    [frequency * R * pi] does not overflow (exact arithmetic has no
    overflow), every returned value [v] satisfies
    [|v| <= |1 - tension * 0.9|], and for tension in [0, 1] every returned
    value lies in [-1, 1]. *)
Theorem z_values_bounded (t f : R) :
  Forall (fun v => Rabs v <= Rabs (1 - t * (9 / 10)))
         (z_values (get_field t f)) /\
  (0 <= t <= 1 ->
   Forall (fun v => -1 <= v <= 1) (z_values (get_field t f))).
Proof.
  assert (Hb : forall xj yi,
             Rabs (cell t f xj yi) <= Rabs (1 - t * (9 / 10))).
  { intros xj yi. rewrite cell_exact, amplitude_exact, Rabs_mult.
    rewrite <- (Rmult_1_r (Rabs (1 - t * (9 / 10)))) at 2.
    apply Rmult_le_compat_l; [apply Rabs_pos|].
    apply Rabs_le, COS_bound. }
  split; [now apply Forall_z_values|].
  intros Ht. apply Forall_z_values. intros xj yi.
  specialize (Hb xj yi).
  rewrite (Rabs_right (1 - t * (9 / 10))) in Hb by lra.
  pose proof (Rle_abs (cell t f xj yi)).
  pose proof (Rle_abs (- cell t f xj yi)) as Hn.
  rewrite Rabs_Ropp in Hn. lra.
Qed.

Lemma z_values_bounded_witness :
  0 <= 0 <= 1 /\
  Forall (fun v => -1 <= v <= 1) (z_values (get_field 0 0)).
Proof.
  split; [lra|]. apply (@z_values_bounded 0 0). lra.
Defined.

(** C10: the field is even in the frequency: negating the frequency
    leaves [z_values] unchanged. *)
Theorem z_values_even (t f : R) :
  z_values (get_field t (- f)) = z_values (get_field t f).
Proof.
  rewrite !z_values_grid. unfold grid_of. f_equal.
  apply map_ext. intros yi. apply map_ext. intros xj.
  rewrite !cell_exact. f_equal.
  replace (- f * sqrt (xj ^ 2 + yi ^ 2) * PI)
    with (- (f * sqrt (xj ^ 2 + yi ^ 2) * PI)) by ring.
  apply cos_neg.
Qed.
End ExactField.

(** ** The amplitude in binary64 *)

Section Binary64Amplitude.
Import Exact Binary64.

(** C6, as stated, fails: at tension 1.0 the handler's amplitude is not
    the double 0.1. *)
Lemma amplitude_one_not_tenth :
  amplitude (of_int 1 : PrimFloat.float) <> double_0_1.
Proof.
  intros H.
  apply (f_equal (fun v => PrimFloat.eqb v double_0_1)) in H.
  vm_compute in H. discriminate H.
Qed.

(** C6, amended: at tension 0.0 the amplitude is exactly 1.0; at tension
    1.0 it is the double 0.09999999999999998 (0x1.9999999999998p-4), which
    lies 2^-55 below the double nearest 0.1; it is 0.1 only in exact
    arithmetic. *)
Theorem amplitude_boundaries :
  amplitude (of_int 0 : PrimFloat.float) = of_int 1 /\
  amplitude (of_int 1 : PrimFloat.float) = double_below_0_1 /\
  PrimFloat.sub double_0_1 (amplitude (of_int 1 : PrimFloat.float))
    = two_pow_minus_55 /\
  amplitude (of_int 0 : R) = 1%R /\
  amplitude (of_int 1 : R) = (1 / 10)%R.
Proof.
  repeat split; try (vm_compute; reflexivity);
    rewrite amplitude_exact; simpl; lra.
Qed.
End Binary64Amplitude.


(** ** The field as the program computes it *)

Ltac float_neq :=
  let H := fresh "H" in
  intro H;
  match type of H with
  | ?a = ?b => apply (f_equal (fun v => PrimFloat.eqb v b)) in H
  end;
  vm_compute in H; discriminate H.

Section ProgramField.
Import Exact Props Binary64.
Local Open Scope R_scope.

Lemma axis_sample_exact (k : nat) :
  (k < 50)%nat -> axis_sample (F:=R) k = coord k.
Proof. apply sample_coord. Qed.

Lemma center_radius64 (i j : nat) :
  In (i, j) center_cells ->
  cell_radius (axis_sample (F:=PrimFloat.float) j) (axis_sample i) =
  center_radius_double.
Proof.
  simpl. intros H.
  repeat destruct H as [H|H]; try contradiction;
    injection H as <- <-; vm_compute; reflexivity.
Qed.

Lemma z_at_center64 (libm_cos : PrimFloat.float -> PrimFloat.float)
      (t f : PrimFloat.float) (i j : nat) :
  In (i, j) center_cells ->
  nth_error (z_values (get_field64 libm_cos t f)) (flat_index i j) =
  Some (mul (amplitude t)
            (libm_cos (mul (mul f center_radius_double) double_pi))).
Proof.
  intros Hin. destruct (center_index Hin) as [Hi Hj].
  unfold get_field64, flat_index.
  rewrite nth_error_z_values by assumption.
  rewrite <- (center_radius64 Hin). reflexivity.
Qed.

(** C1, as stated, fails in the program's arithmetic: in binary64 the
    samples of [np.linspace(-1, 1, 50)] differ from [-1 + 2*k/49] at 18 of
    the 50 indices (index 11 is one), so cell (11, 11) has another radius
    and, at frequency 1e15, another argument of the cosine than the
    formula of the claim. *)
Lemma binary64_axis_off_spec :
  length (filter (fun k => negb (PrimFloat.eqb (axis_sample k) (spec_coord k)))
                 (seq 0 50)) = 18%nat /\
  axis_sample (F:=PrimFloat.float) 11 <> spec_coord 11 /\
  cell_radius (axis_sample (F:=PrimFloat.float) 11) (axis_sample 11) <>
    cell_radius (spec_coord 11) (spec_coord 11) /\
  mul (mul double_1e15
           (cell_radius (axis_sample (F:=PrimFloat.float) 11) (axis_sample 11)))
      double_pi <>
    mul (mul double_1e15 (cell_radius (spec_coord 11) (spec_coord 11)))
        double_pi.
Proof.
  split; [vm_compute; reflexivity|].
  split; [float_neq|]. split; float_neq.
Qed.

(** C1, amended: in every arithmetic, binary64 included, entry
    [i * 50 + j] of [z_values] is
    [(1 - tension * 0.9) * cos (frequency * sqrt (x[j]^2 + x[i]^2) * pi)]
    evaluated in that arithmetic, where [x] is [np.linspace(-1, 1, 50)]:
    [x[k] = k * ((1 - (-1)) / 49) + (-1)] for [k < 49] and [x[49] = 1].
    The output is the row-major flattening of that grid.  In exact
    arithmetic [x[k] = -1 + 2 * k / 49]. *)
Theorem z_values_cells (F : Type) (ops : NumOps F) (trig : Trig F)
        (t f : F) (i j : nat) :
  (i < 50)%nat -> (j < 50)%nat ->
  nth_error (z_values (get_field t f)) (i * 50 + j) =
    Some (mul (amplitude t)
              (np_cos (mul (mul f (cell_radius (axis_sample j)
                                               (axis_sample i)))
                           np_pi))) /\
  axis_sample (F:=R) i = coord i /\
  axis_sample (F:=R) j = coord j.
Proof.
  intros Hi Hj. split; [now apply nth_error_z_values|].
  split; now apply axis_sample_exact.
Qed.

Lemma z_values_cells_witness :
  (3 < 50)%nat /\ (4 < 50)%nat /\
  nth_error (z_values (get_field (0 : R) 1)) (3 * 50 + 4) =
    Some (mul (amplitude 0)
              (np_cos (mul (mul 1 (cell_radius (axis_sample 4)
                                               (axis_sample 3)))
                           np_pi))) /\
  axis_sample (F:=R) 3 = coord 3 /\
  axis_sample (F:=R) 4 = coord 4.
Proof.
  split; [lia|]. split; [lia|].
  apply (@z_values_cells R real_ops real_trig 0 1 3%nat 4%nat); lia.
Defined.

(** C5, amended: each of the four central cells holds
    [amplitude * cos (frequency * R * pi)], where [R] is the radius of
    these cells: 0.02886150127292034 in binary64 (for whatever cosine
    the platform provides) and [sqrt 2 / 49] in exact arithmetic, not 0.
    In exact arithmetic the value is the amplitude at frequency 0, is
    [- amplitude] at frequency [49 / sqrt 2], and is within
    [|amplitude| / 150] of the amplitude whenever [|frequency| <= 1]. *)
Theorem center_cell_value
        (libm_cos : PrimFloat.float -> PrimFloat.float)
        (t64 f64 : PrimFloat.float) (t f : R) (i j : nat) :
  In (i, j) center_cells ->
  nth_error (z_values (get_field64 libm_cos t64 f64)) (flat_index i j) =
    Some (mul (amplitude t64)
              (libm_cos (mul (mul f64 center_radius_double) double_pi))) /\
  sqrt (coord j ^ 2 + coord i ^ 2) = sqrt 2 / 49 /\
  z_at t 0 i j = Some (amplitude t) /\
  z_at t (49 / sqrt 2) i j = Some (- amplitude t) /\
  (Rabs f <= 1 ->
   exists z, z_at t f i j = Some z /\
             Rabs (z - amplitude t) <= Rabs (amplitude t) / 150).
Proof.
  intros Hin.
  split; [now apply z_at_center64|].
  split; [now apply center_radius|].
  rewrite !z_at_center by assumption.
  split; [|split].
  - replace (0 * (sqrt 2 / 49) * PI) with 0 by ring.
    rewrite cos_0. f_equal. ring.
  - assert (Hs : sqrt 2 <> 0).
    { pose proof (sqrt_lt_R0 2 ltac:(lra)). lra. }
    replace (49 / sqrt 2 * (sqrt 2 / 49) * PI) with PI by (field; exact Hs).
    rewrite cos_PI. f_equal. ring.
  - intros Hf. eexists. split; [reflexivity|].
    pose proof (center_deviation t f) as Hd.
    pose proof (Rabs_pos (amplitude t)) as Ha.
    assert (Hff : f * f <= 1).
    { pose proof (Rsqr_le_abs_1 f 1) as Hsq. unfold Rsqr in Hsq.
      rewrite Rabs_R1 in Hsq. specialize (Hsq Hf). lra. }
    pose proof PI_4. pose proof PI_RGT_0.
    assert (Hb : f * f * (PI * PI) / 2401 <= 1 / 150) by nra.
    nra.
Qed.

Lemma center_cell_value_witness :
  In (24, 25)%nat center_cells /\
  sqrt (coord 25 ^ 2 + coord 24 ^ 2) = sqrt 2 / 49 /\
  z_at 0 0 24 25 = Some (amplitude 0) /\
  Rabs 1 <= 1 /\
  exists z, z_at 0 1 24 25 = Some z /\
            Rabs (z - amplitude 0) <= Rabs (amplitude 0) / 150.
Proof.
  assert (Hin : In (24, 25)%nat center_cells) by (simpl; auto).
  assert (H1 : Rabs 1 <= 1) by (rewrite Rabs_R1; lra).
  destruct (@center_cell_value (fun v => v) PrimFloat.zero PrimFloat.one
              0 1 24%nat 25%nat Hin) as (_ & Hr & H0 & _ & Hz).
  split; [exact Hin|]. split; [exact Hr|]. split; [exact H0|].
  split; [exact H1 | exact (Hz H1)].
Defined.

(** C9, as stated, fails in the program's arithmetic: at tension 0 and
    frequency 1e308 the argument of the cosine at the corner cell (0, 0)
    overflows to infinity; a cosine that returns NaN there, as C and
    IEEE-754 prescribe, makes the first returned value NaN, which is
    neither bounded by the amplitude nor inside [-1, 1]. *)
Lemma corner_value_not_bounded :
  mul (mul double_1e308
           (cell_radius (axis_sample (F:=PrimFloat.float) 0) (axis_sample 0)))
      double_pi = PrimFloat.infinity /\
  (forall libm_cos : PrimFloat.float -> PrimFloat.float,
      libm_cos PrimFloat.infinity = PrimFloat.nan ->
      nth_error (z_values (get_field64 libm_cos (of_int 0) double_1e308)) 0 =
      Some PrimFloat.nan) /\
  PrimFloat.leb (PrimFloat.abs PrimFloat.nan)
                (PrimFloat.abs (amplitude (of_int 0))) = false /\
  PrimFloat.leb PrimFloat.nan (of_int 1) = false /\
  PrimFloat.leb (of_int (-1)) PrimFloat.nan = false.
Proof.
  assert (Hphase :
            mul (mul double_1e308
                     (cell_radius (axis_sample (F:=PrimFloat.float) 0)
                                  (axis_sample 0)))
                double_pi = PrimFloat.infinity)
    by (vm_compute; reflexivity).
  split; [exact Hphase|]. split; [|repeat split; vm_compute; reflexivity].
  intros libm_cos Hinf. unfold get_field64.
  change 0%nat with (0 * 50 + 0)%nat.
  rewrite nth_error_z_values by lia.
  unfold cell.
  change (np_sqrt (add (square (sample (of_int (-1)) (of_int 1) 50 0))
                       (square (sample (of_int (-1)) (of_int 1) 50 0))))
    with (cell_radius (axis_sample (F:=PrimFloat.float) 0) (axis_sample 0)).
  change (@np_pi _ (float_trig libm_cos)) with double_pi.
  change (@np_cos _ (float_trig libm_cos)) with libm_cos.
  rewrite Hphase, Hinf. vm_compute. reflexivity.
Qed.
End ProgramField.


(** * Further properties of the handler *)

(** ** Symmetry under exchange of the axes, for every arithmetic *)

Section Transpose.
Context {F : Type} {ops : NumOps F} {trig : Trig F}.
Hypothesis add_comm : forall a b : F, add a b = add b a.

Lemma cell_swap (t f xj yi : F) : cell t f xj yi = cell t f yi xj.
Proof. unfold cell. now rewrite (add_comm (square xj)). Qed.

(** Both axes are the same [linspace] and the squared radius is a
    commutative sum, so the grid equals its transpose: the entries of cells
    [(i, j)] and [(j, i)] coincide, whatever the rounding of the
    arithmetic. *)
Theorem z_values_transpose (t f : F) (i j : nat) :
  i < 50 -> j < 50 ->
  nth_error (z_values (get_field t f)) (i * 50 + j) =
  nth_error (z_values (get_field t f)) (j * 50 + i).
Proof.
  intros Hi Hj. rewrite !nth_error_z_values by assumption.
  now rewrite cell_swap.
Qed.
End Transpose.

(** ** The sampled axis and the radius in exact arithmetic *)

Section ExactGrid.
Import Exact Props.
Local Open Scope R_scope.

Lemma real_add_comm (a b : R) : add a b = add b a.
Proof. simpl. apply Rplus_comm. Qed.

Lemma z_values_transpose_witness :
  (forall a b : R, add a b = add b a) /\ (7 < 50)%nat /\ (31 < 50)%nat /\
  nth_error (z_values (get_field 0 1)) (7 * 50 + 31) =
  nth_error (z_values (get_field 0 1)) (31 * 50 + 7).
Proof.
  split; [exact real_add_comm|]. split; [lia|]. split; [lia|].
  apply (@z_values_transpose R real_ops real_trig real_add_comm
           0 1 7%nat 31%nat); lia.
Defined.

Lemma grid_axis_coord : grid_axis = map coord (seq 0 50).
Proof.
  apply nth_error_ext. intros k.
  destruct (Nat.ltb_spec k 50) as [Hk|Hk].
  - rewrite nth_error_grid_axis by assumption.
    rewrite nth_error_map, nth_error_seq.
    destruct (Nat.ltb_spec k 50); [|lia]. simpl.
    now rewrite sample_coord.
  - transitivity (@None R).
    + apply nth_error_None. now rewrite length_grid_axis.
    + symmetry. apply nth_error_None. now rewrite length_map, length_seq.
Qed.

Lemma INR_50_bound (k : nat) : (k < 50)%nat -> 0 <= INR k <= 49.
Proof.
  intros Hk. split; [apply pos_INR|].
  replace 49 with (INR 49) by (simpl; lra). apply le_INR. lia.
Qed.

Lemma coord_sq_bounds (k : nat) :
  (k < 50)%nat -> 1 / 2401 <= coord k ^ 2 <= 1.
Proof.
  intros Hk. pose proof (INR_50_bound Hk) as Hb. unfold coord.
  assert (Hcase : INR k <= 24 \/ 25 <= INR k).
  { destruct (Nat.le_gt_cases k 24) as [Hle|Hgt].
    - left. replace 24 with (INR 24) by (simpl; lra). now apply le_INR.
    - right. replace 25 with (INR 25) by (simpl; lra). apply le_INR. lia. }
  destruct Hcase; nra.
Qed.

Lemma radius_sq_bounds (i j : nat) :
  (i < 50)%nat -> (j < 50)%nat ->
  2 / 2401 <= coord j ^ 2 + coord i ^ 2 <= 2.
Proof.
  intros Hi Hj.
  pose proof (coord_sq_bounds Hi). pose proof (coord_sq_bounds Hj). lra.
Qed.

Lemma sqrt_2_over_49 : sqrt (2 / 2401) = sqrt 2 / 49.
Proof.
  pose proof (sqrt_pos 2) as H2.
  pose proof (sqrt_sqrt 2 ltac:(lra)) as Hs.
  replace (2 / 2401) with ((sqrt 2 / 49) * (sqrt 2 / 49)) by nra.
  apply sqrt_square. nra.
Qed.

Lemma radius_bounds (i j : nat) :
  (i < 50)%nat -> (j < 50)%nat ->
  sqrt 2 / 49 <= sqrt (coord j ^ 2 + coord i ^ 2) <= sqrt 2.
Proof.
  intros Hi Hj. destruct (radius_sq_bounds Hi Hj) as [Hlo Hhi].
  rewrite <- sqrt_2_over_49. split; now apply sqrt_le_1_alt.
Qed.
End ExactGrid.

(** ** The radius array *)

Section RadiusFacts.
Context {F : Type} {ops : NumOps F} {trig : Trig F}.

End RadiusFacts.

(** ** Shape of the field in exact arithmetic *)

Section ExactShape.
Import Exact Props.
Local Open Scope R_scope.


Lemma Forall_z_values_coord (P : R -> Prop) (t f : R) :
  (forall i j, (i < 50)%nat -> (j < 50)%nat ->
               P (cell t f (coord j) (coord i))) ->
  Forall P (z_values (get_field t f)).
Proof.
  intros HP. rewrite z_values_grid, grid_axis_coord.
  unfold flatten, grid_of.
  apply Forall_concat, Forall_forall. intros row Hrow.
  apply in_map_iff in Hrow as (yi & <- & Hyi).
  apply in_map_iff in Hyi as (i & <- & Hi). apply in_seq in Hi.
  apply Forall_forall. intros v Hv.
  apply in_map_iff in Hv as (xj & <- & Hxj).
  apply in_map_iff in Hxj as (j & <- & Hj). apply in_seq in Hj.
  apply HP; lia.
Qed.

(** At frequency 0 the field is flat: every value is the amplitude. *)
Theorem zero_frequency_flat (t : R) :
  Forall (fun v => v = amplitude t) (z_values (get_field t 0)).
Proof.
  apply Forall_z_values. intros xj yi. rewrite cell_exact.
  replace (0 * sqrt (xj ^ 2 + yi ^ 2) * PI) with 0 by ring.
  rewrite cos_0. ring.
Qed.

(** The tension only scales the field: the values at tension [t] are the
    values at tension 0 multiplied by [amplitude t]. *)
Theorem tension_scales_field (t f : R) :
  z_values (get_field t f) =
  map (Rmult (amplitude t)) (z_values (get_field 0 f)).
Proof.
  rewrite !z_values_grid. unfold flatten, grid_of.
  rewrite concat_map, map_map. f_equal.
  apply map_ext. intros yi. rewrite map_map.
  apply map_ext. intros xj. rewrite !cell_exact, !amplitude_exact. ring.
Qed.
End ExactShape.

(** ** Range of the field in exact arithmetic *)

Section ExactRange.
Import Exact Props.
Local Open Scope R_scope.

Lemma cos_abs_arg (f r : R) : cos (f * r * PI) = cos (Rabs f * r * PI).
Proof.
  destruct (Rcase_abs f) as [Hneg|Hpos].
  - rewrite (Rabs_left f) by assumption.
    replace (- f * r * PI) with (- (f * r * PI)) by ring.
    now rewrite cos_neg.
  - now rewrite (Rabs_right f).
Qed.

Lemma wave_decreasing (f r r' : R) :
  Rabs f * sqrt 2 <= 1 -> 0 <= r -> r <= r' -> r' <= sqrt 2 ->
  cos (f * r' * PI) <= cos (f * r * PI).
Proof.
  intros Hf Hr Hrr Hr'. rewrite !(cos_abs_arg f).
  pose proof (Rabs_pos f) as Hf0. pose proof PI_RGT_0 as Hpi.
  assert (H1 : Rabs f * r <= Rabs f * r') by nra.
  assert (H2 : Rabs f * r' <= 1) by nra.
  assert (H0 : 0 <= Rabs f * r) by nra.
  apply cos_decr_1; nra.
Qed.

Lemma cell_decreasing (t f : R) (i j i' j' : nat) :
  t <= 10 / 9 -> Rabs f * sqrt 2 <= 1 ->
  (i < 50)%nat -> (j < 50)%nat -> (i' < 50)%nat -> (j' < 50)%nat ->
  coord j ^ 2 + coord i ^ 2 <= coord j' ^ 2 + coord i' ^ 2 ->
  cell t f (coord j') (coord i') <= cell t f (coord j) (coord i).
Proof.
  intros Ht Hf Hi Hj Hi' Hj' Hr. rewrite !cell_exact.
  apply Rmult_le_compat_l; [rewrite amplitude_exact; lra|].
  apply wave_decreasing.
  - exact Hf.
  - apply sqrt_pos.
  - now apply sqrt_le_1_alt.
  - now apply radius_bounds.
Qed.

Lemma z_at_cell (t f : R) (i j : nat) :
  (i < 50)%nat -> (j < 50)%nat ->
  z_at t f i j = Some (cell t f (coord j) (coord i)).
Proof.
  intros Hi Hj. rewrite z_at_coord by assumption. now rewrite cell_exact.
Qed.

Lemma sqrt_2_le_2 : sqrt 2 <= 2.
Proof.
  rewrite <- (sqrt_square 2) at 2 by lra. apply sqrt_le_1_alt. lra.
Qed.

Lemma half_frequency_small : Rabs (1 / 2) * sqrt 2 <= 1.
Proof.
  rewrite Rabs_right by lra. pose proof sqrt_2_le_2. lra.
Qed.

(** For a non-negative amplitude (tension at most 10/9) and a frequency
    with [|frequency| * sqrt 2 <= 1], the four central cells hold the
    largest value and the four corners the smallest: every returned value
    lies between the value of cell (0, 0) and the value of cell (24, 24). *)
Theorem peak_at_center (t f : R) :
  t <= 10 / 9 -> Rabs f * sqrt 2 <= 1 ->
  exists lo hi,
    z_at t f 0 0 = Some lo /\ z_at t f 24 24 = Some hi /\
    Forall (fun v => lo <= v <= hi) (z_values (get_field t f)).
Proof.
  intros Ht Hf.
  exists (cell t f (coord 0) (coord 0)), (cell t f (coord 24) (coord 24)).
  split; [apply z_at_cell; lia|]. split; [apply z_at_cell; lia|].
  apply Forall_z_values_coord. intros i j Hi Hj.
  pose proof (radius_sq_bounds Hi Hj) as [Hlo Hhi].
  split; apply cell_decreasing; try assumption; try lia.
  - replace (coord 0 ^ 2 + coord 0 ^ 2) with 2
      by (unfold coord; simpl; field).
    exact Hhi.
  - replace (coord 24 ^ 2 + coord 24 ^ 2) with (2 / 2401)
      by (unfold coord; simpl; field).
    exact Hlo.
Qed.

Lemma peak_at_center_witness :
  0 <= 10 / 9 /\ Rabs (1 / 2) * sqrt 2 <= 1 /\
  exists lo hi,
    z_at 0 (1 / 2) 0 0 = Some lo /\ z_at 0 (1 / 2) 24 24 = Some hi /\
    Forall (fun v => lo <= v <= hi) (z_values (get_field 0 (1 / 2))).
Proof.
  split; [lra|]. split; [exact half_frequency_small|].
  apply (@peak_at_center 0 (1 / 2)); [lra | exact half_frequency_small].
Defined.
End ExactRange.

(** ** The sampled axis in binary64 *)

Section Binary64Axis.
Import Binary64.

(** In binary64 the axis [np.linspace(-1, 1, 50)] starts at exactly -1.0,
    ends at exactly 1.0 (only because the last sample is overwritten: the
    computed [49 * step + (-1)] is 0.99999999999999978) and is strictly
    increasing, but [x[49 - k] = - x[k]] holds only at the indices
    0, 1, 6, 24, 25, 43, 48 and 49: the program's grid is not exactly
    mirror-symmetric, and the mirrored cells (13, 13) and (36, 36) have
    different squared radii. *)
Theorem binary64_axis_not_antisymmetric :
  nth_error (grid_axis (F:=PrimFloat.float)) 0 = Some (of_int (-1)) /\
  nth_error (grid_axis (F:=PrimFloat.float)) 49 = Some (of_int 1) /\
  add (mul (of_nat 49) (div (sub (of_int 1) (of_int (-1))) (of_nat 49)))
      (of_int (-1)) = double_below_1 /\
  forallb (fun k => PrimFloat.ltb (axis_sample k) (axis_sample (S k)))
          (seq 0 49) = true /\
  filter (fun k => PrimFloat.eqb (axis_sample (49 - k))
                                 (PrimFloat.opp (axis_sample k)))
         (seq 0 50) = [0; 1; 6; 24; 25; 43; 48; 49] /\
  add (square (axis_sample (F:=PrimFloat.float) 13)) (square (axis_sample 13))
    <> add (square (axis_sample 36)) (square (axis_sample 36)).
Proof.
  repeat (split; [vm_compute; reflexivity|]). float_neq.
Qed.
End Binary64Axis.
